(** * bayes_intro: conjugate Bayesian updates, credible intervals, point estimates

    A shallow embedding of the numerical cells of
    [notebooks-text-format/bayes_intro.py].

    Conventions of the embedding.
    - Python [int] values are unbounded integers: [Z].
    - Python and numpy floating-point values are idealised as exact
      rationals: [Q].  Rounding, overflow to [inf] and underflow are
      outside the model; [nan] is kept, because numpy produces it for the
      mean of an empty array.  Equality of floats is [Qeq].
    - A Python exception is an explicit [Raise] outcome.
    - scipy's Beta distribution object ([scipy.stats.beta]) and numpy's
      global random generator are library code; they enter as an
      interface ([BetaDistribution], [RandomState]). *)

From Stdlib Require Import ZArith QArith Qabs Qround Qminmax List Bool Lia Lra Psatz.
From Stdlib Require Import Permutation Sorted Morphisms.
Import ListNotations.

Local Open Scope Z_scope.
Local Open Scope Q_scope.

(** ** Python runtime: exceptions and float division *)

Module Py.

Inductive exn : Set :=
| ZeroDivisionError
| ValueError
| IndexError
| NameError.

Inductive result (A : Type) : Type :=
| Ok (a : A)
| Raise (e : exn).
Arguments Ok {A} a.
Arguments Raise {A} e.

Definition bind {A B} (r : result A) (k : A -> result B) : result B :=
  match r with
  | Ok a => k a
  | Raise e => Raise e
  end.



(** The builtin [sum(iterable)] on integers: a left fold from [0]. *)
Definition sum (l : list Z) : Z := fold_left Z.add l 0%Z.


End Py.

Notation "x <- c ;; k" := (Py.bind c (fun x => k))
  (at level 61, c at next level, right associativity).
Notation "' pat <- c ;; k" :=
  (Py.bind c (fun x => match x with pat => k end))
  (at level 61, pat pattern, c at next level, right associativity).

(** ** The numpy functions the notebook calls *)

Module Np.

(** A float that may be [nan]. *)
Inductive float : Type :=
| finite (q : Q)
| nan.


(** [np.sum] of a float array. *)
Definition sum (l : list Q) : Q := fold_left Qplus l 0.


(** [np.sort]: ascending order (insertion sort; any stable sort gives
    the same array). *)
Fixpoint insert (a : Q) (l : list Q) : list Q :=
  match l with
  | [] => [a]
  | b :: l' => if Qle_bool a b then a :: l else b :: insert a l'
  end.

Definition sort (l : list Q) : list Q := fold_right insert [] l.

(** [np.percentile(a, q)] with the default linear interpolation: the
    value at the fractional position [(n-1) * q/100] of the sorted
    array.  A [q] outside [0,100] raises [ValueError]; an empty array
    gives [nan]. *)
Definition lerp (a b t : Q) : Q := a + (b - a) * t.

Definition percentile (a : list Q) (q : Q) : Py.result float :=
  if Qle_bool 0 q && Qle_bool q 100 then
    match sort a with
    | [] => Py.Ok nan
    | (s0 :: _) as s =>
        let pos := inject_Z (Z.of_nat (length s) - 1) * (q / 100) in
        let i := Z.to_nat (Qfloor pos) in
        let lo := nth i s s0 in
        let hi := nth (Nat.min (S i) (length s - 1)) s s0 in
        Py.Ok (finite (lerp lo hi (pos - inject_Z (Qfloor pos))))
    end
  else Py.Raise Py.ValueError.




End Np.

(** ** Beta-Binomial model: exact inference *)

Module BetaBinomial.


(** Sufficient statistics of the credible-interval cell:
    [N = ntrials; N1 = sum(data); N0 = N-N1]. *)
Record sufficient := { N : Z; N1 : Z; N0 : Z }.

Definition sufficient_statistics (ntrials : Z) (data : list Z) : sufficient :=
  let N := ntrials in
  let N1 := Py.sum data in
  let N0 := (N - N1)%Z in
  {| N := N; N1 := N1; N0 := N0 |}.

(** [apost = aprior + N1; bpost = bprior + N0]. *)
Definition posterior (aprior bprior : Z) (s : sufficient) : Z * Z :=
  let apost := (aprior + N1 s)%Z in
  let bpost := (bprior + N0 s)%Z in
  (apost, bpost).


(** numpy keeps [N1] in a 64-bit signed integer. *)
Definition int64 (z : Z) : Z :=
  ((z + 2 ^ 63) mod 2 ^ 64 - 2 ^ 63)%Z.

Definition sum_int64 (l : list Z) : Z :=
  fold_left (fun acc y => int64 (acc + y)) l 0%Z.

End BetaBinomial.

(** ** scipy.stats.beta and the global random generator *)

(** The inverse CDF of Beta(a, b) on [0,1]; the values scipy computes. *)
Class BetaDistribution : Type :=
  { quantile : Z -> Z -> Q -> Q }.

(** numpy's global generator: [np.random.seed] installs a state that
    depends on the seed only; a draw returns its samples and the next
    state. *)
Class RandomState : Type :=
  { rng : Type;
    seed_state : Z -> rng;
    draw_bernoulli : Q -> nat -> rng -> list Z * rng;
    draw_beta : Z -> Z -> nat -> rng -> list Q * rng }.

(** What is known of the inverse CDF: it is a function of the number
    [q], and it does not decrease on [0,1]. *)
Class QuantileLaws (B : BetaDistribution) : Prop :=
  { quantile_proper : forall a b p q, p == q -> quantile a b p == quantile a b q;
    quantile_mono : forall a b p q,
        0 <= p -> p <= q -> q <= 1 -> quantile a b p <= quantile a b q }.

(** A draw of [n] samples returns [n] samples. *)
Class RandomLaws (R : RandomState) : Prop :=
  { draw_beta_length : forall a b n g, length (fst (draw_beta a b n g)) = n }.

Module Beta.
Section Methods.
Context {B : BetaDistribution} {R : RandomState}.

Definition valid_shape (a b : Z) : bool := (0 <? a)%Z && (0 <? b)%Z.

(** [beta.ppf(q, a, b)]: [nan] outside the domain. *)
Definition ppf (q : Q) (a b : Z) : Np.float :=
  if valid_shape a b && Qle_bool 0 q && Qle_bool q 1
  then Np.finite (quantile a b q) else Np.nan.

(** [beta.interval(confidence, a, b)]: equal areas around the median,
    [ValueError] unless [0 <= confidence <= 1]. *)
Definition interval (confidence : Q) (a b : Z) : Py.result (Np.float * Np.float) :=
  if Qle_bool 0 confidence && Qle_bool confidence 1 then
    let q1 := (1 - confidence) / 2 in
    let q2 := (1 + confidence) / 2 in
    Py.Ok (ppf q1 a b, ppf q2 a b)
  else Py.Raise Py.ValueError.

(** [beta.rvs(a, b, size=n)] and [bernoulli.rvs(p=p, size=n)] draw
    from the global generator; invalid parameters raise. *)
Definition rvs (a b : Z) (size : nat) (g : rng) : Py.result (list Q * rng) :=
  if valid_shape a b then Py.Ok (draw_beta a b size g)
  else Py.Raise Py.ValueError.

Definition bernoulli_rvs (p : Q) (size : nat) (g : rng) : Py.result (list Z * rng) :=
  if Qle_bool 0 p && Qle_bool p 1 then Py.Ok (draw_bernoulli p size g)
  else Py.Raise Py.ValueError.
End Methods.
End Beta.

(** ** Credible intervals *)

Module Credible.

(** Equality of floats up to the representation of the rational. *)
Definition feq (a b : Np.float) : Prop :=
  match a, b with
  | Np.finite p, Np.finite q => p == q
  | Np.nan, Np.nan => True
  | _, _ => False
  end.


Section Cell.
Context {B : BetaDistribution} {R : RandomState}.

(** [CI1 = beta.interval(1-alpha, apost, bpost)] *)
Definition CI1 (alpha : Q) (apost bpost : Z) : Py.result (Np.float * Np.float) :=
  Beta.interval (1 - alpha) apost bpost.

(** [l = beta.ppf(alpha/2, apost, bpost);
     u = beta.ppf(1-alpha/2, apost, bpost); CI2 = (l,u)] *)
Definition CI2 (alpha : Q) (apost bpost : Z) : Np.float * Np.float :=
  let l := Beta.ppf (alpha / 2) apost bpost in
  let u := Beta.ppf (1 - alpha / 2) apost bpost in
  (l, u).

(** [samples = beta.rvs(apost, bpost, size=10000);
     samples = np.sort(samples);
     CI3 = np.percentile(samples, 100*np.array([alpha/2, 1-alpha/2]))] *)
Definition percentiles (samples : list Q) (alpha : Q) : Py.result (Np.float * Np.float) :=
  lo <- Np.percentile samples (100 * (alpha / 2)) ;;
  hi <- Np.percentile samples (100 * (1 - alpha / 2)) ;;
  Py.Ok (lo, hi).

Definition CI3 (alpha : Q) (apost bpost : Z) (size : nat) (g : rng)
  : Py.result ((list Q * (Np.float * Np.float)) * rng) :=
  '(samples, g) <- Beta.rvs apost bpost size g ;;
  let samples := Np.sort samples in
  ci <- percentiles samples alpha ;;
  Py.Ok ((samples, ci), g).

(** [np.random.seed(s)] followed by code that draws: whatever the
    generator held before is discarded. *)
Definition seeded {A} (s : Z) (m : rng -> Py.result (A * rng)) (g : rng)
  : Py.result (A * rng) :=
  m (seed_state s).

(** The credible-interval cell, its literals ([42], [0.35], [100],
    [1], [1], [0.05], [10000]) made parameters. *)
Record intervals : Type :=
  { apost : Z; bpost : Z;
    ci1 : Np.float * Np.float;
    ci2 : Np.float * Np.float;
    samples : list Q;
    ci3 : Np.float * Np.float }.

Definition cell (s : Z) (theta_real : Q) (ntrials : nat) (aprior bprior : Z)
    (alpha : Q) (size : nat) : rng -> Py.result (intervals * rng) :=
  seeded s (fun g =>
    '(data, g) <- Beta.bernoulli_rvs theta_real ntrials g ;;
    let st := BetaBinomial.sufficient_statistics (Z.of_nat ntrials) data in
    let '(apost, bpost) := BetaBinomial.posterior aprior bprior st in
    c1 <- CI1 alpha apost bpost ;;
    let c2 := CI2 alpha apost bpost in
    '(sc3, g) <- CI3 alpha apost bpost size g ;;
    Py.Ok ({| apost := apost; bpost := bpost; ci1 := c1; ci2 := c2;
              samples := fst sc3; ci3 := snd sc3 |}, g)).
End Cell.
End Credible.

(** ** Point estimates: minimising the posterior expected loss on a grid *)

Module PointEstimate.








(** *** Vocabulary for the properties of the estimate *)

Definition size (l : list Q) : Q := inject_Z (Z.of_nat (length l)).









End PointEstimate.

(** ** 1d Gaussian with known variance: exact inference *)

Module Gaussian.

















End Gaussian.

(** ** Concrete instances of the library interfaces *)

Module Examples.

(** Beta(1,1) is the uniform distribution: its inverse CDF is the
    identity. *)
Definition uniform : BetaDistribution :=
  {| quantile := fun _ _ q => q |}.

(** A small linear congruential generator; a draw maps each state to a
    number in (0,1). *)
Definition lcg_next (g : Z) : Z := ((1103515245 * g + 12345) mod 2147483648)%Z.

Fixpoint lcg_draw (n : nat) (g : Z) : list Q * Z :=
  match n with
  | O => ([], g)
  | S n' =>
      let g' := lcg_next g in
      let '(l, g'') := lcg_draw n' g' in
      (Qmake (2 * (g' mod 1000) + 1) 2000 :: l, g'')
  end.

Definition lcg : RandomState :=
  {| rng := Z;
     seed_state := fun s => s;
     draw_bernoulli := fun p n g =>
       let '(l, g') := lcg_draw n g in
       (map (fun u => if Qle_bool u p then 1%Z else 0%Z) l, g');
     draw_beta := fun _ _ n g => lcg_draw n g |}.

End Examples.

(** ** More of numpy: arithmetic with [nan], comparisons, extrema *)

Module NpArray.

(** A binary operation on floats: [nan] if either operand is. *)
Definition lift2 (f : Q -> Q -> Q) (a b : Np.float) : Np.float :=
  match a, b with
  | Np.finite p, Np.finite q => Np.finite (f p q)
  | _, _ => Np.nan
  end.

(** [v >= b] and [v <= b]: every comparison with [nan] is false. *)
Definition ge (v : Q) (b : Np.float) : bool :=
  match b with Np.finite q => Qle_bool q v | Np.nan => false end.

Definition le (v : Q) (b : Np.float) : bool :=
  match b with Np.finite q => Qle_bool v q | Np.nan => false end.

(** [np.max] and [np.min]: [ValueError] on an empty array. *)
Definition max (l : list Q) : Py.result Q :=
  match l with
  | [] => Py.Raise Py.ValueError
  | a :: l' => Py.Ok (fold_left (fun m v => if Qle_bool m v then v else m) l' a)
  end.

Definition min (l : list Q) : Py.result Q :=
  match l with
  | [] => Py.Raise Py.ValueError
  | a :: l' => Py.Ok (fold_left (fun m v => if Qle_bool v m then v else m) l' a)
  end.

End NpArray.

(** ** Removing outliers *)

Module Outliers.

(** [def removeOutliers(x, outlierConstant=1.5)]:
    [a = np.array(x)];
    [upper_quartile = np.percentile(a, 75)];
    [lower_quartile = np.percentile(a, 25)];
    [IQR = (upper_quartile - lower_quartile) * outlierConstant];
    [quartileSet = (lower_quartile - IQR, upper_quartile + IQR)];
    [result = a[np.where((a >= quartileSet[0]) & (a <= quartileSet[1]))]];
    [return result.tolist()]. *)
Definition removeOutliers (x : list Q) (outlierConstant : Q) : Py.result (list Q) :=
  let a := x in
  upper_quartile <- Np.percentile a 75 ;;
  lower_quartile <- Np.percentile a 25 ;;
  let IQR := NpArray.lift2 Qmult (NpArray.lift2 Qminus upper_quartile lower_quartile)
                           (Np.finite outlierConstant) in
  let quartileSet := (NpArray.lift2 Qminus lower_quartile IQR,
                      NpArray.lift2 Qplus upper_quartile IQR) in
  let result :=
    filter (fun v => NpArray.ge v (fst quartileSet) && NpArray.le v (snd quartileSet)) a in
  Py.Ok result.

(** The default [outlierConstant=1.5]. *)
Definition outlierConstant_default : Q := 3 # 2.

End Outliers.

(** ** Support of the uniform prior on the mean *)

Module Support.

(** [r = np.max(data)-np.min(data)];
    [min_mu = np.min(data)-0.1*r];
    [max_mu = np.max(data)+0.1*r].
    ([prior_std = 3*np.std(data)] needs a square root and is left out.) *)
Record bounds : Type := { r : Q; min_mu : Q; max_mu : Q }.

Definition uniform_bounds (data : list Q) : Py.result bounds :=
  hi <- NpArray.max data ;;
  lo <- NpArray.min data ;;
  let r := hi - lo in
  lo' <- NpArray.min data ;;
  let min_mu := lo' - (1 # 10) * r in
  hi' <- NpArray.max data ;;
  let max_mu := hi' + (1 # 10) * r in
  Py.Ok {| r := r; min_mu := min_mu; max_mu := max_mu |}.

End Support.

(** ** Pairwise comparison of group means *)

Module Comparisons.

(** [comparisons = [(i, j) for i in range(ngroups) for j in range(i+1, ngroups)]] *)
Definition comparisons (ngroups : nat) : list (nat * nat) :=
  flat_map (fun i => map (fun j => (i, j)) (seq (i + 1) (ngroups - (i + 1))))
           (seq 0 ngroups).

(** [pos = [(k, l) for k in range(ngroups-1) for l in (0, 1)]] *)
Definition pos (ngroups : nat) : list (nat * nat) :=
  flat_map (fun k => map (fun l => (k, l)) [0; 1]%nat) (seq 0 (ngroups - 1)).




End Comparisons.

(** ** Updating in two steps *)

Module Sequential.

(** The posterior of one Beta update taken as the prior of the next. *)
Definition beta_twice (aprior bprior : Z) (n1 : Z) (data1 : list Z)
    (n2 : Z) (data2 : list Z) : Z * Z :=
  let '(a1, b1) :=
    BetaBinomial.posterior aprior bprior
      (BetaBinomial.sufficient_statistics n1 data1) in
  BetaBinomial.posterior a1 b1 (BetaBinomial.sufficient_statistics n2 data2).



End Sequential.

(** ** Vocabulary for percentiles *)

Module Quantile.

(** The fractional position of the [q]-th percentile among [n] sorted
    values, and the value [np.percentile] reads off there. *)
Definition position (n : nat) (q : Q) : Q :=
  inject_Z (Z.of_nat n - 1) * (q / 100).

Definition interpolate (s : list Q) (pos : Q) : Q :=
  let i := Z.to_nat (Qfloor pos) in
  Np.lerp (nth i s 0) (nth (Nat.min (S i) (length s - 1)) s 0)
          (pos - inject_Z (Qfloor pos)).

End Quantile.


(** * Properties *)

(** ** Beta-Binomial update *)

Module BetaBinomialFacts.
Import BetaBinomial.

Lemma py_sum_from (l : list Z) (acc : Z) :
  fold_left Z.add l acc = (acc + Py.sum l)%Z.
Proof.
  unfold Py.sum. revert acc.
  induction l as [|y l IH]; intros acc; simpl.
  - lia.
  - rewrite (IH (acc + y)%Z), (IH y). lia.
Qed.

Lemma py_sum_cons (y : Z) (l : list Z) : Py.sum (y :: l) = (y + Py.sum l)%Z.
Proof. unfold Py.sum at 1. simpl. apply py_sum_from. Qed.



(** As long as the prior counts plus the number of trials fit in 63
    bits, the 64-bit sum numpy computes is the unbounded one. *)
Lemma sum_int64_exact (data : list Z) :
  Forall (fun y => y = 0%Z \/ y = 1%Z) data ->
  (Z.of_nat (length data) < 2 ^ 63)%Z ->
  sum_int64 data = Py.sum data.
Proof.
  intros Hbits Hlen.
  assert (G : forall l acc,
             Forall (fun y => y = 0%Z \/ y = 1%Z) l ->
             (0 <= acc)%Z -> (acc + Z.of_nat (length l) < 2 ^ 63)%Z ->
             fold_left (fun a y => int64 (a + y)) l acc = fold_left Z.add l acc).
  { induction l as [|y l IH]; intros acc Hl Hacc Hb; simpl; [reflexivity|].
    inversion Hl as [|? ? Hy Hl']; subst.
    assert (E : int64 (acc + y) = (acc + y)%Z).
    { unfold int64. simpl length in Hb.
      rewrite Z.mod_small; destruct Hy as [-> | ->]; lia. }
    rewrite E. apply IH; [assumption | destruct Hy; lia |].
    simpl length in Hb. destruct Hy as [-> | ->]; lia. }
  unfold sum_int64, Py.sum. apply G; [assumption | lia | lia].
Qed.



End BetaBinomialFacts.

(** ** Python division *)

Module PyFacts.




End PyFacts.

(** ** Gaussian update *)

Module GaussianFacts.
Import Gaussian PyFacts.












(** *** What the update does on malformed parameters *)




End GaussianFacts.

(** ** numpy: sorting and percentiles *)

Module NpFacts.

Lemma Qle_bool_false (a b : Q) : Qle_bool a b = false -> b <= a.
Proof.
  intros E. destruct (Qlt_le_dec b a) as [H|H].
  - now apply Qlt_le_weak.
  - apply Qle_bool_iff in H. congruence.
Qed.


Lemma insert_length (a : Q) (l : list Q) :
  length (Np.insert a l) = S (length l).
Proof.
  induction l as [|b l IH]; simpl; [reflexivity|].
  destruct (Qle_bool a b); simpl; [reflexivity | now rewrite IH].
Qed.

Lemma sort_length (l : list Q) : length (Np.sort l) = length l.
Proof.
  induction l as [|a l IH]; simpl; [reflexivity|].
  now rewrite insert_length, IH.
Qed.

Lemma insert_perm (a : Q) (l : list Q) : Permutation (a :: l) (Np.insert a l).
Proof.
  induction l as [|b l IH]; simpl; [reflexivity|].
  destruct (Qle_bool a b); [reflexivity|].
  rewrite perm_swap. now constructor.
Qed.

Lemma sort_perm (l : list Q) : Permutation l (Np.sort l).
Proof.
  induction l as [|a l IH]; simpl; [constructor|].
  rewrite <- insert_perm. now constructor.
Qed.

Lemma insert_Forall (P : Q -> Prop) (a : Q) (l : list Q) :
  P a -> Forall P l -> Forall P (Np.insert a l).
Proof.
  intros Ha Hl. induction Hl as [|b l Hb Hl IH]; simpl.
  - repeat constructor. assumption.
  - destruct (Qle_bool a b); repeat constructor; assumption.
Qed.

Lemma insert_sorted (a : Q) (l : list Q) :
  StronglySorted Qle l -> StronglySorted Qle (Np.insert a l).
Proof.
  induction 1 as [|b l Hl IH Hb]; simpl.
  - repeat constructor.
  - destruct (Qle_bool a b) eqn:E.
    + apply Qle_bool_iff in E. constructor.
      * now constructor.
      * constructor; [assumption|].
        eapply Forall_impl; [|exact Hb].
        intros c Hc. now apply Qle_trans with b.
    + apply Qle_bool_false in E. constructor; [assumption|].
      now apply insert_Forall.
Qed.

Lemma sort_sorted (l : list Q) : StronglySorted Qle (Np.sort l).
Proof.
  induction l as [|a l IH]; simpl; [constructor | now apply insert_sorted].
Qed.





End NpFacts.

(** ** Credible intervals *)

Module CredibleFacts.
Import Credible NpFacts.

Ltac qnorm :=
  unfold Qdiv in *;
  change (/ 2) with (1 # 2) in *;
  change (/ 100) with (1 # 100) in *.

Lemma feq_refl (a : Np.float) : feq a a.
Proof. destruct a; simpl; [reflexivity | exact I]. Qed.

Section Intervals.
Context {B : BetaDistribution}.

Lemma ppf_valid (q : Q) (a b : Z) :
  (0 < a)%Z -> (0 < b)%Z -> 0 <= q -> q <= 1 ->
  Beta.ppf q a b = Np.finite (quantile a b q).
Proof.
  intros Ha Hb H0 H1. unfold Beta.ppf, Beta.valid_shape.
  apply Z.ltb_lt in Ha, Hb. apply Qle_bool_iff in H0, H1.
  now rewrite Ha, Hb, H0, H1.
Qed.



(** C3. For a posterior [Beta(a', b')] and a level in (0,1), the
    interval is the pair of the inverse CDF at [(1-level)/2] and at
    [1-(1-level)/2]. *)
Theorem credible_interval_two_sided (a' b' : Z) (level : Q) :
  (0 < a')%Z -> (0 < b')%Z -> 0 < level -> level < 1 ->
  CI2 (1 - level) a' b' =
  (Np.finite (quantile a' b' ((1 - level) / 2)),
   Np.finite (quantile a' b' (1 - (1 - level) / 2))).
Proof.
  intros Ha Hb H0 H1. unfold CI2.
  rewrite !ppf_valid; try assumption; try reflexivity; qnorm; lra.
Qed.

(** C9. For levels [level1 < level2] in (0,1), the interval at [level2]
    contains the interval at [level1]. *)
Theorem credible_interval_monotone `{!QuantileLaws B}
    (a' b' : Z) (level1 level2 : Q) :
  (0 < a')%Z -> (0 < b')%Z ->
  0 < level1 -> level1 < level2 -> level2 < 1 ->
  exists l1 u1 l2 u2,
    CI2 (1 - level1) a' b' = (Np.finite l1, Np.finite u1) /\
    CI2 (1 - level2) a' b' = (Np.finite l2, Np.finite u2) /\
    l2 <= l1 /\ u1 <= u2.
Proof.
  intros Ha Hb H0 H12 H1.
  do 4 eexists.
  split; [unfold CI2; rewrite !ppf_valid; try assumption; try reflexivity; qnorm; lra|].
  split; [unfold CI2; rewrite !ppf_valid; try assumption; try reflexivity; qnorm; lra|].
  split; apply quantile_mono; qnorm; lra.
Qed.



End Intervals.




End CredibleFacts.

(** ** Monte Carlo interval *)

Module MonteCarloFacts.
Import Credible NpFacts CredibleFacts.

Section Seeded.
Context {B : BetaDistribution} {R : RandomState}.

(** Whatever the generator held before the cell, the cell computes the
    same values. *)
Lemma cell_ignores_generator (s : Z) (theta_real : Q) (ntrials : nat)
    (aprior bprior : Z) (alpha : Q) (size : nat) (g1 g2 : rng) :
  cell s theta_real ntrials aprior bprior alpha size g1 =
  cell s theta_real ntrials aprior bprior alpha size g2.
Proof. reflexivity. Qed.



End Seeded.
End MonteCarloFacts.

(** ** Point estimates *)

Module PointEstimateFacts.
Import PointEstimate NpFacts.

(** *** Sums and sizes *)





Lemma size_nonneg (l : list Q) : 0 <= size l.
Proof.
  unfold size. change 0 with (inject_Z 0). rewrite <- Zle_Qle. lia.
Qed.


Lemma div_le_iff (a b n : Q) : 0 < n -> (a / n <= b / n <-> a <= b).
Proof.
  intros Hn. split; intros H.
  - apply Qmult_le_r with (z := / n); [now apply Qinv_lt_0_compat | exact H].
  - apply Qmult_le_r; [now apply Qinv_lt_0_compat | exact H].
Qed.


(** *** The loss arrays hold the expected losses *)



(** *** [np.argmin] returns the first minimum *)





(** *** Squared loss: the expected loss is a parabola around the mean *)





(** *** A grid of resolution [h] has two neighbours around every point
    between its ends *)



(** *** Absolute loss: moving away from more than half of the samples
    increases the expected loss *)











(** *** The middle samples of the sorted array *)






Lemma sorted_nth_le (l : list Q) :
  StronglySorted Qle l ->
  forall i j d, (i <= j)%nat -> (j < length l)%nat -> nth i l d <= nth j l d.
Proof.
  induction 1 as [|a l Hl IH Ha]; intros i j d Hij Hj; simpl in Hj; [lia|].
  destruct i as [|i], j as [|j]; simpl nth; try lia.
  - apply Qle_refl.
  - rewrite Forall_forall in Ha. apply Ha, nth_In. lia.
  - apply IH; lia.
Qed.











End PointEstimateFacts.

(** ** Malformed parameters *)

Module ValidationFacts.
Import Gaussian Credible.



End ValidationFacts.

(** ** The theorems at concrete inputs *)

Module Witnesses.
Import Credible CredibleFacts MonteCarloFacts.

Lemma uniform_laws : QuantileLaws Examples.uniform.
Proof.
  split; simpl; intros.
  - assumption.
  - assumption.
Qed.

Lemma lcg_draw_length (n : nat) (g : Z) :
  length (fst (Examples.lcg_draw n g)) = n.
Proof.
  revert g. induction n as [|n IH]; intros g; simpl; [reflexivity|].
  specialize (IH (Examples.lcg_next g)).
  destruct (Examples.lcg_draw n (Examples.lcg_next g)). simpl in *. now rewrite IH.
Qed.

Lemma lcg_laws : RandomLaws Examples.lcg.
Proof. split. intros a b n g. apply lcg_draw_length. Qed.

(** The 95% interval of the uniform posterior Beta(1,1). *)
Lemma credible_interval_two_sided_witness :
  @CI2 Examples.uniform (1 - (95 # 100)) 1 1 =
  (Np.finite ((1 - (95 # 100)) / 2), Np.finite (1 - (1 - (95 # 100)) / 2)).
Proof.
  apply (@credible_interval_two_sided Examples.uniform 1 1 (95 # 100));
    reflexivity.
Defined.

(** The 95% interval of Beta(1,1) contains its 50% interval. *)
Lemma credible_interval_monotone_witness :
  exists l1 u1 l2 u2,
    @CI2 Examples.uniform (1 - (1 # 2)) 1 1 = (Np.finite l1, Np.finite u1) /\
    @CI2 Examples.uniform (1 - (95 # 100)) 1 1 = (Np.finite l2, Np.finite u2) /\
    l2 <= l1 /\ u1 <= u2.
Proof.
  apply (@credible_interval_monotone Examples.uniform uniform_laws
           1 1 (1 # 2) (95 # 100)); reflexivity.
Defined.



End Witnesses.

(** * More of the notebook *)

(** ** Percentiles of a sorted array *)

Module QuantileFacts.
Import Quantile NpFacts.

Lemma sort_nonempty (l : list Q) : l <> [] -> Np.sort l <> [].
Proof.
  intros Hl E. apply (f_equal (@length Q)) in E.
  rewrite sort_length in E. destruct l; [contradiction | discriminate].
Qed.

Lemma percentile_interpolate (l : list Q) (q : Q) :
  l <> [] -> 0 <= q -> q <= 100 ->
  Np.percentile l q =
  Py.Ok (Np.finite (interpolate (Np.sort l) (position (length l) q))).
Proof.
  intros Hl H0 H1. unfold Np.percentile.
  apply Qle_bool_iff in H0, H1. rewrite H0, H1. simpl andb. cbv iota.
  pose proof (sort_nonempty l Hl) as Hs.
  pose proof (sort_length l) as Hlen.
  destruct (Np.sort l) as [|s0 s] eqn:E; [contradiction|].
  unfold interpolate, position. rewrite <- Hlen.
  set (pos := inject_Z (Z.of_nat (length (s0 :: s)) - 1) * (q / 100)).
  assert (Hpos : 0 <= pos).
  { unfold pos. apply Qmult_le_0_compat.
    - change 0 with (inject_Z 0). rewrite <- Zle_Qle. simpl length. lia.
    - apply Qle_bool_iff in H0. unfold Qdiv. change (/ 100) with (1 # 100). lra. }
  assert (Hle : pos <= inject_Z (Z.of_nat (length (s0 :: s)) - 1)).
  { unfold pos. apply Qle_bool_iff in H0, H1.
    assert (0 <= inject_Z (Z.of_nat (length (s0 :: s)) - 1)).
    { change 0 with (inject_Z 0). rewrite <- Zle_Qle. simpl length. lia. }
    unfold Qdiv. change (/ 100) with (1 # 100). nra. }
  assert (Hi : (Z.to_nat (Qfloor pos) < length (s0 :: s))%nat).
  { apply Qfloor_resp_le in Hle. rewrite Qfloor_Z in Hle.
    apply Qfloor_resp_le in Hpos. change (Qfloor 0) with 0%Z in Hpos.
    simpl length in *. lia. }
  do 2 f_equal. f_equal.
  - apply nth_indep. exact Hi.
  - apply nth_indep. simpl length in *. lia.
Qed.

Section Sorted.
Variable s : list Q.
Hypothesis Hsorted : StronglySorted Qle s.
Hypothesis Hne : s <> [].

Lemma length_pos : (0 < length s)%nat.
Proof. destruct s; [contradiction | simpl; lia]. Qed.

Lemma floor_index (pos : Q) :
  0 <= pos -> pos <= inject_Z (Z.of_nat (length s) - 1) ->
  (0 <= Qfloor pos)%Z /\ (Z.to_nat (Qfloor pos) <= length s - 1)%nat /\
  0 <= pos - inject_Z (Qfloor pos) /\ pos - inject_Z (Qfloor pos) < 1.
Proof.
  intros H0 H1. pose proof length_pos as Hn.
  pose proof (Qfloor_resp_le _ _ H0) as F0. change (Qfloor 0) with 0%Z in F0.
  pose proof (Qfloor_resp_le _ _ H1) as F1.
  rewrite Qfloor_Z in F1.
  pose proof (Qfloor_le pos) as L. pose proof (Qlt_floor pos) as U.
  rewrite inject_Z_plus in U. change (inject_Z 1) with 1 in U.
  repeat split; try lia; lra.
Qed.

(** The interpolated value lies between its two neighbours. *)
Lemma interpolate_between (pos : Q) :
  0 <= pos -> pos <= inject_Z (Z.of_nat (length s) - 1) ->
  nth (Z.to_nat (Qfloor pos)) s 0 <= interpolate s pos /\
  interpolate s pos <= nth (Nat.min (S (Z.to_nat (Qfloor pos))) (length s - 1)) s 0.
Proof.
  intros H0 H1. pose proof length_pos as Hn.
  destruct (floor_index pos H0 H1) as (Hz & Hi & Hf0 & Hf1).
  unfold interpolate, Np.lerp.
  set (i := Z.to_nat (Qfloor pos)) in *.
  set (f := pos - inject_Z (Qfloor pos)) in *.
  assert (Hlh : nth i s 0 <= nth (Nat.min (S i) (length s - 1)) s 0).
  { apply PointEstimateFacts.sorted_nth_le; [assumption | lia | lia]. }
  split; nra.
Qed.

(** The interpolated value does not decrease with the position. *)
Lemma interpolate_mono (p1 p2 : Q) :
  0 <= p1 -> p1 <= p2 -> p2 <= inject_Z (Z.of_nat (length s) - 1) ->
  interpolate s p1 <= interpolate s p2.
Proof.
  intros H0 H12 H2. pose proof length_pos as Hn.
  assert (H1 : p1 <= inject_Z (Z.of_nat (length s) - 1)) by lra. assert (H0' : 0 <= p2) by lra.
  destruct (floor_index p1 H0 H1) as (Hz1 & Hi1 & Hf1 & Hg1).
  destruct (floor_index p2 H0' H2) as (Hz2 & Hi2 & Hf2 & Hg2).
  pose proof (Qfloor_resp_le _ _ H12) as Hz.
  destruct (Z.eq_dec (Qfloor p1) (Qfloor p2)) as [E|NE].
  - unfold interpolate, Np.lerp. rewrite <- E.
    set (i := Z.to_nat (Qfloor p1)) in *.
    assert (Hlh : nth i s 0 <= nth (Nat.min (S i) (length s - 1)) s 0).
    { apply PointEstimateFacts.sorted_nth_le; [assumption | lia | lia]. }
    rewrite <- E in Hf2, Hg2.
    assert (Hf : p1 - inject_Z (Qfloor p1) <= p2 - inject_Z (Qfloor p1)) by lra.
    nra.
  - destruct (interpolate_between p1 H0 H1) as [_ U1].
    destruct (interpolate_between p2 H0' H2) as [L2 _].
    assert (Hmid : nth (Nat.min (S (Z.to_nat (Qfloor p1))) (length s - 1)) s 0
                   <= nth (Z.to_nat (Qfloor p2)) s 0).
    { apply PointEstimateFacts.sorted_nth_le; [assumption | lia | lia]. }
    lra.
Qed.

End Sorted.

Lemma position_range (n : nat) (q : Q) :
  (0 < n)%nat -> 0 <= q -> q <= 100 ->
  0 <= position n q /\ position n q <= inject_Z (Z.of_nat n - 1).
Proof.
  intros Hn H0 H1. unfold position.
  assert (0 <= inject_Z (Z.of_nat n - 1)).
  { change 0 with (inject_Z 0). rewrite <- Zle_Qle. lia. }
  unfold Qdiv. change (/ 100) with (1 # 100). split; nra.
Qed.

Lemma position_mono (n : nat) (q1 q2 : Q) :
  (0 < n)%nat -> q1 <= q2 -> position n q1 <= position n q2.
Proof.
  intros Hn H. unfold position.
  assert (0 <= inject_Z (Z.of_nat n - 1)).
  { change 0 with (inject_Z 0). rewrite <- Zle_Qle. lia. }
  unfold Qdiv. change (/ 100) with (1 # 100). nra.
Qed.

(** [np.percentile] does not decrease with the percentage. *)
Lemma percentile_mono (l : list Q) (q1 q2 : Q) :
  l <> [] -> 0 <= q1 -> q1 <= q2 -> q2 <= 100 ->
  exists v1 v2,
    Np.percentile l q1 = Py.Ok (Np.finite v1) /\
    Np.percentile l q2 = Py.Ok (Np.finite v2) /\ v1 <= v2.
Proof.
  intros Hl H0 H12 H2.
  assert (Hn : (0 < length l)%nat) by (destruct l; [contradiction | simpl; lia]).
  do 2 eexists.
  split; [apply percentile_interpolate; [assumption | lra | lra]|].
  split; [apply percentile_interpolate; [assumption | lra | lra]|].
  destruct (position_range (length l) q1 Hn) as [P0 _]; [lra | lra |].
  destruct (position_range (length l) q2 Hn) as [_ P1]; [lra | lra |].
  apply interpolate_mono.
  - apply sort_sorted.
  - now apply sort_nonempty.
  - exact P0.
  - now apply position_mono.
  - rewrite sort_length. exact P1.
Qed.

(** A percentile lies between two of the values. *)
Lemma percentile_within (l : list Q) (q : Q) :
  l <> [] -> 0 <= q -> q <= 100 ->
  exists v a b,
    Np.percentile l q = Py.Ok (Np.finite v) /\
    In a l /\ In b l /\ a <= v /\ v <= b.
Proof.
  intros Hl H0 H1.
  assert (Hn : (0 < length l)%nat) by (destruct l; [contradiction | simpl; lia]).
  destruct (position_range (length l) q Hn H0 H1) as [P0 P1'].
  assert (P1 : position (length l) q
               <= inject_Z (Z.of_nat (length (Np.sort l)) - 1))
    by (rewrite sort_length; exact P1').
  pose proof (interpolate_between (Np.sort l) (sort_sorted l)
                (sort_nonempty l Hl) _ P0 P1) as [L U].
  destruct (floor_index (Np.sort l) (sort_sorted l) (sort_nonempty l Hl) _ P0 P1)
    as (_ & Hi & _).
  pose proof (length_pos (Np.sort l) (sort_sorted l) (sort_nonempty l Hl)) as Hs.
  do 3 eexists.
  split; [apply percentile_interpolate; assumption|].
  split; [|split; [|split; [exact L | exact U]]].
  - apply (Permutation_in _ (Permutation_sym (sort_perm l))).
    apply nth_In. lia.
  - apply (Permutation_in _ (Permutation_sym (sort_perm l))).
    apply nth_In. lia.
Qed.

End QuantileFacts.

(** ** Outlier removal *)

Module OutliersFacts.
Import Outliers Quantile NpFacts QuantileFacts.

(** The quartiles of a non-empty array are finite and ordered, and the
    function keeps the values between the two fences. *)
Lemma removeOutliers_fences (x : list Q) (c : Q) :
  x <> [] ->
  exists Q1 Q3,
    Np.percentile x 25 = Py.Ok (Np.finite Q1) /\
    Np.percentile x 75 = Py.Ok (Np.finite Q3) /\
    Q1 <= Q3 /\
    removeOutliers x c =
    Py.Ok (filter (fun v => Qle_bool (Q1 - (Q3 - Q1) * c) v
                            && Qle_bool v (Q3 + (Q3 - Q1) * c)) x).
Proof.
  intros Hx.
  destruct (percentile_mono x 25 75 Hx) as (Q1 & Q3 & E1 & E3 & Hle);
    [discriminate | discriminate | discriminate |].
  exists Q1, Q3. repeat split; try assumption.
  unfold removeOutliers. rewrite E3, E1. reflexivity.
Qed.

(** X1. For a non-empty input the function returns a list of values of the
    input; the quartiles are ordered, and with a non-negative constant
    every input value between them is returned. *)
Theorem removeOutliers_keeps_interquartile (x : list Q) (c : Q) :
  x <> [] -> 0 <= c ->
  exists result Q1 Q3,
    removeOutliers x c = Py.Ok result /\
    Np.percentile x 25 = Py.Ok (Np.finite Q1) /\
    Np.percentile x 75 = Py.Ok (Np.finite Q3) /\
    Q1 <= Q3 /\
    (forall v, In v result -> In v x) /\
    (forall v, In v x -> Q1 <= v -> v <= Q3 -> In v result).
Proof.
  intros Hx Hc.
  destruct (removeOutliers_fences x c Hx) as (Q1 & Q3 & E1 & E3 & Hle & E).
  eexists. exists Q1, Q3. split; [exact E|].
  split; [exact E1|]. split; [exact E3|]. split; [exact Hle|].
  split; [intros v Hv; apply filter_In in Hv; tauto|].
  intros v Hin H1 H3.
  apply filter_In. split; [assumption|].
  apply andb_true_iff. split; apply Qle_bool_iff; nra.
Qed.

Lemma removeOutliers_keeps_interquartile_witness :
  exists result,
    removeOutliers [1; 2; 3; 4; 100] (3 # 2) = Py.Ok result /\ In 3 result.
Proof.
  destruct (removeOutliers_keeps_interquartile [1; 2; 3; 4; 100] (3 # 2))
    as (result & Q1 & Q3 & E & E1 & E3 & _ & _ & Hkeep).
  - discriminate.
  - discriminate.
  - exists result. split; [exact E|].
    vm_compute in E1, E3. injection E1 as <-. injection E3 as <-.
    apply Hkeep.
    + right. right. left. reflexivity.
    + discriminate.
    + discriminate.
Defined.

(** X2. A larger constant keeps at least as much. *)
Theorem removeOutliers_monotone (x : list Q) (c1 c2 : Q) :
  x <> [] -> 0 <= c1 -> c1 <= c2 ->
  exists r1 r2,
    removeOutliers x c1 = Py.Ok r1 /\
    removeOutliers x c2 = Py.Ok r2 /\
    (forall v, In v r1 -> In v r2) /\
    (length r1 <= length r2)%nat.
Proof.
  intros Hx H1 H12.
  destruct (removeOutliers_fences x c1 Hx) as (Q1 & Q3 & E1 & E3 & Hle & R1).
  destruct (removeOutliers_fences x c2 Hx) as (Q1' & Q3' & E1' & E3' & _ & R2).
  rewrite E1 in E1'. rewrite E3 in E3'.
  injection E1' as <-. injection E3' as <-.
  assert (Himp : forall v,
    Qle_bool (Q1 - (Q3 - Q1) * c1) v && Qle_bool v (Q3 + (Q3 - Q1) * c1) = true ->
    Qle_bool (Q1 - (Q3 - Q1) * c2) v && Qle_bool v (Q3 + (Q3 - Q1) * c2) = true).
  { intros v Hv. apply andb_true_iff in Hv. destruct Hv as [A B].
    apply Qle_bool_iff in A, B.
    apply andb_true_iff. split; apply Qle_bool_iff; nra. }
  do 2 eexists. split; [exact R1|]. split; [exact R2|]. split.
  - intros v Hv. apply filter_In in Hv. destruct Hv as [Hin Hv].
    apply filter_In. split; [assumption | now apply Himp].
  - clear Hx E1 E3 R1 R2.
    induction x as [|b l IH]; simpl; [lia|].
    destruct (Qle_bool (Q1 - (Q3 - Q1) * c1) b
              && Qle_bool b (Q3 + (Q3 - Q1) * c1)) eqn:F1.
    + rewrite (Himp b F1). simpl. lia.
    + destruct (Qle_bool (Q1 - (Q3 - Q1) * c2) b
                && Qle_bool b (Q3 + (Q3 - Q1) * c2)); simpl; lia.
Qed.

Lemma removeOutliers_monotone_witness :
  exists r1 r2,
    removeOutliers [1; 5] 0 = Py.Ok r1 /\
    removeOutliers [1; 5] (3 # 2) = Py.Ok r2 /\
    (length r1 <= length r2)%nat.
Proof.
  destruct (removeOutliers_monotone [1; 5] 0 (3 # 2))
    as (r1 & r2 & E1 & E2 & _ & Hlen).
  - discriminate.
  - discriminate.
  - discriminate.
  - exists r1, r2. repeat split; assumption.
Defined.




End OutliersFacts.

(** ** Support of the uniform prior *)

Module SupportFacts.
Import Support NpFacts.

Lemma fold_max (l : list Q) (m0 : Q) :
  let m := fold_left (fun m v => if Qle_bool m v then v else m) l m0 in
  m0 <= m /\ Forall (fun v => v <= m) l /\ (m = m0 \/ In m l).
Proof.
  revert m0. induction l as [|a l IH]; intros m0; simpl.
  - split; [apply Qle_refl|]. split; [constructor | now left].
  - destruct (Qle_bool m0 a) eqn:E.
    + apply Qle_bool_iff in E.
      destruct (IH a) as (H1 & H2 & H3).
      split; [lra|]. split; [constructor; assumption|].
      right. destruct H3 as [-> | H3]; [now left | now right].
    + apply Qle_bool_false in E.
      destruct (IH m0) as (H1 & H2 & H3).
      split; [assumption|]. split; [constructor; [lra | assumption]|].
      destruct H3 as [H3 | H3]; [now left | right; now right].
Qed.

Lemma fold_min (l : list Q) (m0 : Q) :
  let m := fold_left (fun m v => if Qle_bool v m then v else m) l m0 in
  m <= m0 /\ Forall (fun v => m <= v) l /\ (m = m0 \/ In m l).
Proof.
  revert m0. induction l as [|a l IH]; intros m0; simpl.
  - split; [apply Qle_refl|]. split; [constructor | now left].
  - destruct (Qle_bool a m0) eqn:E.
    + apply Qle_bool_iff in E.
      destruct (IH a) as (H1 & H2 & H3).
      split; [lra|]. split; [constructor; assumption|].
      right. destruct H3 as [-> | H3]; [now left | now right].
    + apply Qle_bool_false in E.
      destruct (IH m0) as (H1 & H2 & H3).
      split; [assumption|]. split; [constructor; [lra | assumption]|].
      destruct H3 as [H3 | H3]; [now left | right; now right].
Qed.

(** [np.max] and [np.min] of a non-empty array are values of the array
    that bound all of them. *)
Lemma max_spec (l : list Q) :
  l <> [] ->
  exists m, NpArray.max l = Py.Ok m /\ In m l /\ Forall (fun v => v <= m) l.
Proof.
  intros Hl. destruct l as [|a l]; [contradiction|].
  destruct (fold_max l a) as (H1 & H2 & H3).
  eexists. split; [reflexivity|]. split.
  - destruct H3 as [-> | H3]; [now left | now right].
  - constructor; assumption.
Qed.

Lemma min_spec (l : list Q) :
  l <> [] ->
  exists m, NpArray.min l = Py.Ok m /\ In m l /\ Forall (fun v => m <= v) l.
Proof.
  intros Hl. destruct l as [|a l]; [contradiction|].
  destruct (fold_min l a) as (H1 & H2 & H3).
  eexists. split; [reflexivity|]. split.
  - destruct H3 as [-> | H3]; [now left | now right].
  - constructor; assumption.
Qed.

Lemma uniform_bounds_value (data : list Q) :
  data <> [] ->
  exists lo hi,
    In lo data /\ In hi data /\
    Forall (fun v => lo <= v /\ v <= hi) data /\
    uniform_bounds data =
    Py.Ok {| r := hi - lo;
             min_mu := lo - (1 # 10) * (hi - lo);
             max_mu := hi + (1 # 10) * (hi - lo) |}.
Proof.
  intros Hd.
  destruct (max_spec data Hd) as (hi & Ehi & Ihi & Hhi).
  destruct (min_spec data Hd) as (lo & Elo & Ilo & Hlo).
  exists lo, hi. split; [assumption|]. split; [assumption|]. split.
  - rewrite Forall_forall in *. intros v Hv. split; auto.
  - unfold uniform_bounds. rewrite Ehi, Elo. reflexivity.
Qed.



(** X5. Without observations the cell stops with [ValueError]; when all
    observations are equal the support has no width. *)
Theorem uniform_bounds_degenerate (data : list Q) (a : Q) :
  Forall (fun v => v == a) data ->
  match uniform_bounds data with
  | Py.Raise e => data = [] /\ e = Py.ValueError
  | Py.Ok b => data <> [] /\ r b == 0 /\ min_mu b == a /\ max_mu b == a
  end.
Proof.
  intros Hall. destruct data as [|d data].
  - simpl. split; reflexivity.
  - destruct (uniform_bounds_value (d :: data)) as (lo & hi & Ilo & Ihi & _ & E);
      [discriminate|].
    rewrite E. simpl. split; [discriminate|].
    rewrite Forall_forall in Hall.
    pose proof (Hall lo Ilo) as Hlo. pose proof (Hall hi Ihi) as Hhi.
    rewrite Hlo, Hhi. repeat split; ring.
Qed.

Lemma uniform_bounds_degenerate_witness :
  exists b, uniform_bounds [7; 7; 7] = Py.Ok b /\ min_mu b == max_mu b.
Proof.
  pose proof (uniform_bounds_degenerate [7; 7; 7] 7) as H.
  destruct (uniform_bounds [7; 7; 7]) as [b|e].
  - exists b. split; [reflexivity|].
    destruct H as (_ & _ & H1 & H2).
    + repeat constructor; reflexivity.
    + rewrite H1, H2. reflexivity.
  - destruct H as [H _].
    + repeat constructor; reflexivity.
    + discriminate.
Defined.

End SupportFacts.

(** ** Pairwise comparisons and their plot cells *)

Module ComparisonsFacts.
Import Comparisons.

(** The comparisons are the pairs [i < j] of groups. *)
Lemma in_comparisons (n i j : nat) :
  In (i, j) (comparisons n) <-> (i < j < n)%nat.
Proof.
  unfold comparisons. rewrite in_flat_map. split.
  - intros (i' & Hi' & Hin). apply in_map_iff in Hin.
    destruct Hin as (j' & E & Hj'). injection E as <- <-.
    apply in_seq in Hi', Hj'. lia.
  - intros H. exists i. split; [apply in_seq; lia|].
    apply in_map_iff. exists j. split; [reflexivity | apply in_seq; lia].
Qed.

Lemma NoDup_flat_map {A B} (f : A -> list B) (l : list A) :
  NoDup l -> (forall a, In a l -> NoDup (f a)) ->
  (forall a b y, In a l -> In b l -> In y (f a) -> In y (f b) -> a = b) ->
  NoDup (flat_map f l).
Proof.
  induction 1 as [|a l Ha Hl IH]; intros Hf Hdisj; simpl; [constructor|].
  apply NoDup_app.
  - apply Hf. now left.
  - apply IH.
    + intros b Hb. apply Hf. now right.
    + intros b c y Hb Hc. apply Hdisj; now right.
  - intros y Hy Hy'. apply in_flat_map in Hy'. destruct Hy' as (b & Hb & Hyb).
    assert (a = b) by (apply (Hdisj a b y); auto; [now left | now right]).
    subst. contradiction.
Qed.

Lemma comparisons_rows (n a k : nat) :
  (a + k = n)%nat ->
  (2 * length (flat_map (fun i => map (fun j => (i, j)) (seq (i + 1) (n - (i + 1))))
                        (seq a k))
   = k * (k - 1))%nat.
Proof.
  revert a. induction k as [|k IH]; intros a Hn; simpl; [reflexivity|].
  rewrite length_app, length_map, length_seq.
  specialize (IH (S a) ltac:(lia)).
  replace (n - (a + 1))%nat with k by lia. nia.
Qed.

(** X6. Every pair of distinct groups is compared exactly once:
    [ngroups * (ngroups - 1) / 2] comparisons, none repeated. *)
Theorem comparisons_each_pair_once (ngroups : nat) :
  (forall i j, In (i, j) (comparisons ngroups) <-> (i < j < ngroups)%nat) /\
  NoDup (comparisons ngroups) /\
  (2 * length (comparisons ngroups) = ngroups * (ngroups - 1))%nat.
Proof.
  split; [intros i j; apply in_comparisons|]. split.
  - unfold comparisons. apply NoDup_flat_map.
    + apply seq_NoDup.
    + intros i _. apply Finite.Injective_map_NoDup; [|apply seq_NoDup].
      intros j j' E. now injection E.
    + intros i i' [u v] _ _ H1 H2.
      apply in_map_iff in H1, H2.
      destruct H1 as (? & E1 & _). destruct H2 as (? & E2 & _). congruence.
  - unfold comparisons. apply comparisons_rows. reflexivity.
Qed.

Lemma pos_rows (a k : nat) :
  length (flat_map (fun k => map (fun l => (k, l)) [0; 1]%nat) (seq a k))
  = (2 * k)%nat.
Proof.
  revert a. induction k as [|k IH]; intros a; simpl; [reflexivity|].
  rewrite IH. lia.
Qed.

Lemma pos_length (n : nat) : length (pos n) = (2 * (n - 1))%nat.
Proof. unfold pos. apply pos_rows. Qed.





End ComparisonsFacts.

(** ** The Beta update over batches of data *)

Module UpdateFacts.
Import BetaBinomial BetaBinomialFacts Sequential.

Lemma py_sum_app (l1 l2 : list Z) :
  Py.sum (l1 ++ l2) = (Py.sum l1 + Py.sum l2)%Z.
Proof.
  unfold Py.sum at 1. rewrite fold_left_app. fold (Py.sum l1).
  apply py_sum_from.
Qed.

Lemma py_sum_perm (l l' : list Z) : Permutation l l' -> Py.sum l = Py.sum l'.
Proof.
  induction 1 as [| a l l' _ IH | a b l | l l' l'' _ IH1 _ IH2].
  - reflexivity.
  - rewrite !py_sum_cons, IH. reflexivity.
  - rewrite !py_sum_cons. lia.
  - congruence.
Qed.

(** X8. Updating on one batch and then, from that posterior, on a second
    batch gives the posterior of one update on the two batches
    together. *)
Theorem beta_batches_compose (aprior bprior n1 n2 : Z) (data1 data2 : list Z) :
  beta_twice aprior bprior n1 data1 n2 data2 =
  posterior aprior bprior (sufficient_statistics (n1 + n2) (data1 ++ data2)).
Proof.
  unfold beta_twice, posterior, sufficient_statistics. simpl.
  rewrite py_sum_app. f_equal; lia.
Qed.

(** X9. The posterior does not depend on the order of the outcomes. *)
Theorem beta_order_irrelevant (aprior bprior ntrials : Z) (data data' : list Z) :
  Permutation data data' ->
  posterior aprior bprior (sufficient_statistics ntrials data) =
  posterior aprior bprior (sufficient_statistics ntrials data').
Proof.
  intros Hp. unfold posterior, sufficient_statistics. simpl.
  rewrite (py_sum_perm _ _ Hp). reflexivity.
Qed.

Lemma beta_order_irrelevant_witness :
  posterior 1 1 (sufficient_statistics 3 [1; 0; 1]%Z) =
  posterior 1 1 (sufficient_statistics 3 [0; 1; 1]%Z).
Proof.
  apply (beta_order_irrelevant 1 1 3 [1; 0; 1]%Z [0; 1; 1]%Z).
  apply perm_swap.
Defined.



End UpdateFacts.

(** ** The three intervals of the credible-interval cell *)

Module IntervalFacts.
Import Credible NpFacts CredibleFacts QuantileFacts.

Section WithBeta.
Context {B : BetaDistribution} {R : RandomState}.

(** X11. The inverse-CDF interval is well formed for [alpha] in [0,1]; for
    [alpha] between 1 and 2 the two ends come out in reverse order. *)
Theorem CI2_ordered `{!QuantileLaws B} (alpha : Q) (apost bpost : Z) :
  (0 < apost)%Z -> (0 < bpost)%Z -> 0 <= alpha -> alpha <= 2 ->
  exists l u,
    CI2 alpha apost bpost = (Np.finite l, Np.finite u) /\
    (alpha <= 1 -> l <= u) /\ (1 <= alpha -> u <= l).
Proof.
  intros Ha Hb H0 H2. unfold CI2.
  rewrite !ppf_valid; try assumption; try (qnorm; lra).
  do 2 eexists. split; [reflexivity|].
  split; intros H1; apply quantile_mono; qnorm; lra.
Qed.

(** X12. The Monte Carlo interval: from at least one draw and [alpha] in
    [0,1] it is well formed and lies between two of the sorted samples,
    which are the draws rearranged. *)
Theorem CI3_ordered `{!RandomLaws R} (alpha : Q) (apost bpost : Z)
    (size : nat) (g : rng) :
  (0 < apost)%Z -> (0 < bpost)%Z -> 0 <= alpha -> alpha <= 1 ->
  (1 <= size)%nat ->
  exists samples lo hi g',
    CI3 alpha apost bpost size g =
      Py.Ok ((samples, (Np.finite lo, Np.finite hi)), g') /\
    Permutation (fst (draw_beta apost bpost size g)) samples /\
    StronglySorted Qle samples /\
    lo <= hi /\
    exists a b, In a samples /\ In b samples /\ a <= lo /\ hi <= b.
Proof.
  intros Ha Hb H0 H1 Hn.
  unfold CI3, Beta.rvs, Beta.valid_shape.
  apply Z.ltb_lt in Ha, Hb. rewrite Ha, Hb. simpl.
  pose proof (draw_beta_length apost bpost size g) as Hlen.
  destruct (draw_beta apost bpost size g) as [drawn g']. simpl in *.
  assert (Hne : drawn <> []) by (intros ->; simpl in Hlen; lia).
  pose proof (sort_nonempty drawn Hne) as Hsne.
  destruct (percentile_mono (Np.sort drawn) (100 * (alpha / 2)) (100 * (1 - alpha / 2)) Hsne)
    as (lo & hi & Elo & Ehi & Hle); [qnorm; lra | qnorm; lra | qnorm; lra |].
  destruct (percentile_within (Np.sort drawn) (100 * (alpha / 2)) Hsne)
    as (lo' & a & _ & Elo' & Ia & _ & Hal & _); [qnorm; lra | qnorm; lra |].
  destruct (percentile_within (Np.sort drawn) (100 * (1 - alpha / 2)) Hsne)
    as (hi' & _ & b & Ehi' & _ & Ib & _ & Hhb); [qnorm; lra | qnorm; lra |].
  rewrite Elo in Elo'. injection Elo' as <-.
  rewrite Ehi in Ehi'. injection Ehi' as <-.
  exists (Np.sort drawn), lo, hi, g'.
  split; [unfold percentiles; rewrite Elo, Ehi; reflexivity|].
  split; [apply sort_perm|]. split; [apply sort_sorted|].
  split; [exact Hle|]. exists a, b. auto.
Qed.


End WithBeta.
End IntervalFacts.

(** ** The credible-interval cell as a whole *)

Module CellFacts.
Import Credible NpFacts CredibleFacts MonteCarloFacts.

Section Whole.
Context {B : BetaDistribution} {R : RandomState}.


End Whole.
End CellFacts.

(** ** More on the Gaussian update *)

Module GaussianMoreFacts.
Import Gaussian GaussianFacts PyFacts.









(** *** More data, less variance *)





(** *** From standard deviations *)





(** *** Updating in two steps *)






End GaussianMoreFacts.

(** ** Point estimates on the notebook's grid *)

Module NotebookGridFacts.
Import PointEstimate PointEstimateFacts NpFacts.







End NotebookGridFacts.

(** ** The interval theorems at concrete inputs *)

Module MoreWitnesses.
Import Credible CredibleFacts IntervalFacts CellFacts.


Lemma CI2_ordered_witness :
  exists l u,
    @CI2 Examples.uniform (5 # 100) 1 1 = (Np.finite l, Np.finite u) /\ l <= u.
Proof.
  destruct (@CI2_ordered Examples.uniform Witnesses.uniform_laws (5 # 100) 1 1)
    as (l & u & E & Hle & _).
  - reflexivity.
  - reflexivity.
  - discriminate.
  - discriminate.
  - exists l, u. split; [exact E|]. apply Hle. discriminate.
Defined.

Lemma CI3_ordered_witness :
  exists samples lo hi g',
    @CI3 Examples.lcg (5 # 100) 1 1 5 42%Z =
      Py.Ok ((samples, (Np.finite lo, Np.finite hi)), g') /\ lo <= hi.
Proof.
  destruct (@CI3_ordered Examples.lcg Witnesses.lcg_laws (5 # 100) 1 1 5%nat 42%Z)
    as (samples & lo & hi & g' & E & _ & _ & Hle & _).
  - reflexivity.
  - reflexivity.
  - discriminate.
  - discriminate.
  - lia.
  - exists samples, lo, hi, g'. split; assumption.
Defined.



End MoreWitnesses.
